(** * htmltools: the template scanner [template_dfa] of src/template.cpp

    [template_dfa] breaks the text of an HTML template into a character
    vector whose first element is HTML, the next is R code, and so on
    alternating.  The file embeds the C++ function as Rocq functions over
    byte lists and proves the properties the specification states about it. *)

From Stdlib Require Import ZArith Lia.
From Stdlib Require Import Strings.Byte Strings.String.
From stdpp Require Import base list.

Local Open Scope Z_scope.

(** ** The fragment of the R API the function uses *)

Module R.

(** A CHARSXP: either the missing string or a sequence of bytes.  R keeps
    the length of a CHARSXP in an [int], and no CHARSXP holds a NUL byte. *)
Inductive CHARSXP :=
| NA_STRING
| mkChar (s : list byte).

(** [CHAR(x)]: the bytes of a CHARSXP; those of the missing string spell NA. *)
Definition CHAR (x : CHARSXP) : list byte :=
  match x with
  | NA_STRING => list_byte_of_string "NA"
  | mkChar s => s
  end.

(** [R_BlankString], the element a fresh character vector is filled with. *)
Definition R_BlankString : CHARSXP := mkChar [].

(** A STRSXP (character vector) is an array of CHARSXPs. *)
Abbreviation STRSXP := (list CHARSXP).

(** [Rf_xlength] of a vector and of a CHARSXP, as an [R_xlen_t]. *)
Definition Rf_xlength {A} (x : list A) : Z := Z.of_nat (length x).

(** [Rf_allocVector(STRSXP, n)]. *)
Definition Rf_allocVector (n : Z) : STRSXP := replicate (Z.to_nat n) R_BlankString.

(** [Rf_lengthgets(x, len)]: a copy of [x] of length [len], truncated or
    padded with missing strings. *)
Definition Rf_lengthgets (x : STRSXP) (len : Z) : STRSXP :=
  take (Z.to_nat len) x ++ replicate (Z.to_nat len - length x)%nat NA_STRING.

(** [SET_STRING_ELT(x, i, val)].  R signals an error when [i] is not an
    index of [x]; here such a store leaves [x] as it is, and
    [stores_in_range] below shows that the scanner never does one. *)
Definition SET_STRING_ELT (x : STRSXP) (i : Z) (val : CHARSXP) : STRSXP :=
  if (0 <=? i) && (i <? Rf_xlength x) then <[Z.to_nat i := val]> x else x.

(** [STRING_ELT(x, i)]. *)
Definition STRING_ELT (x : STRSXP) (i : Z) : CHARSXP :=
  default NA_STRING (x !! Z.to_nat i).

(** [Rf_mkCharLenCE(input + start, len, CE_UTF8)]: the CHARSXP made of the
    [len] bytes of [input] from offset [start] on.  The encoding mark does
    not change the bytes.  R signals an error for a negative [len]; here it
    gives the empty string, and [stores_in_range] shows that the
    scanner never asks for one. *)
Definition Rf_mkCharLenCE (input : list byte) (start len : Z) : CHARSXP :=
  mkChar (take (Z.to_nat len) (drop (Z.to_nat start) input)).

(** [SETLENGTH(x, n)] followed by [SET_TRUELENGTH(x, n)], for [n] below the
    length of [x]. *)
Definition SETLENGTH (x : STRSXP) (n : Z) : STRSXP := take (Z.to_nat n) x.

(** The largest [int] of the C implementation, and the value an [R_xlen_t]
    has once it is stored in an [int]. *)
Definition INT_MAX : Z := 2147483647.

Definition to_int (z : Z) : Z := (z + 2 ^ 31) mod 2 ^ 32 - 2 ^ 31.

End R.

Import R.

(** ** The scanner *)

(** [str_sxp_set(x, i, val)]: store [val] at index [i], doubling the length
    of [x] first when [i] is past its end. *)
Definition str_sxp_set (x : STRSXP) (i : Z) (val : CHARSXP) : STRSXP :=
  let len := Rf_xlength x in
  let x := if len <=? i then Rf_lengthgets x (len * 2) else x in
  SET_STRING_ELT x i val.

Inductive State :=
| html
| code
| html_oneOpenBracket
| code_oneCloseBracket
| code_string1
| code_string1_backslash
| code_string2
| code_string2_backslash
| code_backtick
| code_backtick_backslash
| code_percentOp
| code_comment
| code_comment_oneCloseBracket.

(** The two calls of [Rf_error] in [template_dfa]: the input is not a
    character vector of length 1; the template did not end in an html state
    (the closing braces are missing). *)
Inductive error :=
| InvalidInput
| UnterminatedCode.

Inductive result :=
| Ok (pieces : STRSXP)
| Error (e : error).

(** The local variables the loop of [template_dfa] updates. *)
Record locals := mkLocals {
  state : State;
  pieceStartIdx : Z;      (* int *)
  pieces : STRSXP;
  pieces_num : Z          (* R_xlen_t *)
}.

Definition set_state (l : locals) (s : State) : locals :=
  mkLocals s (pieceStartIdx l) (pieces l) (pieces_num l).

(** The four statements that the source repeats at each of its three
    delimiter-completing transitions: the piece from [pieceStartIdx] up to
    the byte before the delimiter is stored at [pieces_num++], and the next
    piece starts after the delimiter. *)
Definition add_piece (input : list byte) (i : Z) (l : locals) (s : State) : locals :=
  let str := Rf_mkCharLenCE input (pieceStartIdx l) (i - pieceStartIdx l - 1) in
  mkLocals s
           (to_int (i + 1))
           (str_sxp_set (pieces l) (to_int (pieces_num l)) str)
           (pieces_num l + 1).

(** The body of the loop: the switch on [state] and, inside it, on the byte
    [c = input[i]]. *)
Definition loop_body (input : list byte) (i : Z) (c : byte) (l : locals) : locals :=
  match state l with
  | html =>
      match c with
      | "{"%byte => set_state l html_oneOpenBracket
      | _ => l
      end
  | html_oneOpenBracket =>
      match c with
      | "{"%byte => add_piece input i l code
      | _ => set_state l html
      end
  | code =>
      match c with
      | "}"%byte => set_state l code_oneCloseBracket
      | "'"%byte => set_state l code_string1
      | x22 => set_state l code_string2
      | "`"%byte => set_state l code_backtick
      | "%"%byte => set_state l code_percentOp
      | "#"%byte => set_state l code_comment
      | _ => l
      end
  | code_oneCloseBracket =>
      match c with
      | "}"%byte => add_piece input i l html
      | _ => set_state l code
      end
  | code_string1 =>
      match c with
      | "\"%byte => set_state l code_string1_backslash
      | "'"%byte => set_state l code
      | _ => l
      end
  | code_string1_backslash => set_state l code_string1
  | code_string2 =>
      match c with
      | "\"%byte => set_state l code_string2_backslash
      | x22 => set_state l code
      | _ => l
      end
  | code_string2_backslash => set_state l code_string2
  | code_backtick =>
      match c with
      | "\"%byte => set_state l code_backtick_backslash
      | "`"%byte => set_state l code
      | _ => l
      end
  | code_backtick_backslash => set_state l code_backtick
  | code_percentOp =>
      match c with
      | "%"%byte => set_state l code
      | _ => l
      end
  | code_comment =>
      match c with
      | "}"%byte => set_state l code_comment_oneCloseBracket
      | x0a => set_state l code
      | _ => l
      end
  | code_comment_oneCloseBracket =>
      match c with
      | "}"%byte => add_piece input i l html
      | _ => set_state l code
      end
  end.

(** [for (i = 0; i < len; i++) { c = input[i]; ... }]: [todo] is the part of
    [input] from offset [i] on. *)
Fixpoint for_loop (input todo : list byte) (i : Z) (l : locals) : locals :=
  match todo with
  | [] => l
  | c :: todo' => for_loop input todo' (i + 1) (loop_body input i c l)
  end.

Definition init : locals := mkLocals html 0 (Rf_allocVector 10) 0.

(** The scan of one CHARSXP, from the declaration of [pieces] to the end of
    the loop. *)
Definition scan (input : list byte) : locals := for_loop input input 0 init.

Definition template_dfa (x_sxp : STRSXP) : result :=
  if negb (Rf_xlength x_sxp =? 1) then Error InvalidInput
  else
    let input_sxp := STRING_ELT x_sxp 0 in
    let input := CHAR input_sxp in
    let len := Rf_xlength input in
    let l := scan input in
    match state l with
    | html | html_oneOpenBracket =>
        (* Add ending HTML piece *)
        let str := Rf_mkCharLenCE input (pieceStartIdx l) (len - pieceStartIdx l) in
        let pieces' := str_sxp_set (pieces l) (to_int (pieces_num l)) str in
        let pieces_num' := pieces_num l + 1 in
        Ok (if pieces_num' <? Rf_xlength pieces'
            then SETLENGTH pieces' pieces_num' else pieces')
    | _ => Error UnterminatedCode
    end.

(** Byte strings as the examples write them. *)
Definition bytes (s : string) : list byte := list_byte_of_string s.
Definition str (s : string) : CHARSXP := mkChar (bytes s).

(** ** What the result means

    The kind of a piece is its position: "the first element of the resulting
    vector is HTML, the next is R code, and they continue alternating". *)
Inductive kind := HTML | RCode.

Definition kind_at (i : nat) : kind := if Nat.even i then HTML else RCode.

(** The delimiter that ends a piece of the given kind. *)
Definition delimiter_after (k : kind) : list byte :=
  match k with
  | HTML => ["{"%byte; "{"%byte]
  | RCode => ["}"%byte; "}"%byte]
  end.

(** The pieces from position [i] on, written out one after the other with
    the delimiter put back between each piece and the next. *)
Fixpoint reassemble (i : nat) (ps : STRSXP) : list byte :=
  match ps with
  | [] => []
  | [p] => CHAR p
  | p :: rest => CHAR p ++ delimiter_after (kind_at i) ++ reassemble (S i) rest
  end.

(** The same with the delimiter after the last piece too: the part of the
    document that the loop has turned into pieces so far. *)
Fixpoint joined (i : nat) (ps : STRSXP) : list byte :=
  match ps with
  | [] => []
  | p :: rest => CHAR p ++ delimiter_after (kind_at i) ++ joined (S i) rest
  end.

(** The states in which the scanner reads HTML. *)
Definition in_html (s : State) : bool :=
  match s with
  | html | html_oneOpenBracket => true
  | _ => false
  end.

(** The states that hold back the first byte of a possible delimiter. *)
Definition pending (s : State) : option byte :=
  match s with
  | html_oneOpenBracket => Some "{"%byte
  | code_oneCloseBracket | code_comment_oneCloseBracket => Some "}"%byte
  | _ => None
  end.

(** [d] has two adjacent bytes [c]. *)
Definition has_double (c : byte) (d : list byte) : Prop :=
  exists a b, d = a ++ [c; c] ++ b.

(** The same as a test. *)
Fixpoint has_doubleb (c : byte) (d : list byte) : bool :=
  match d with
  | a :: (b :: _) as d' => (Byte.eqb a c && Byte.eqb b c) || has_doubleb c d'
  | _ => false
  end.

(** A turn of the loop in state [region] on each byte of [d] changes no local
    variable: the bytes [d] are ordinary text there. *)
Definition blind_to (d : list byte) (region : State) : Prop :=
  forall input i start ps n,
    for_loop input d i (mkLocals region start ps n) = mkLocals region start ps n.

(** In state [region] a backslash leads to state [escape], which any byte
    leaves for [region] again, with no other local variable changed. *)
Definition escapes (region escape : State) : Prop :=
  forall input i c start ps n,
    loop_body input i "\"%byte (mkLocals region start ps n) = mkLocals escape start ps n
    /\ loop_body input i c (mkLocals escape start ps n) = mkLocals region start ps n
    /\ for_loop input ["\"%byte; c] i (mkLocals region start ps n)
       = mkLocals region start ps n.

(** ** The piece buffer *)

Lemma to_int_small z : - 2 ^ 31 <= z <= INT_MAX -> to_int z = z.
Proof.
  unfold to_int, INT_MAX. intros H.
  rewrite Z.mod_small; lia.
Qed.

Lemma Rf_xlength_app {A} (x y : list A) : Rf_xlength (x ++ y) = Rf_xlength x + Rf_xlength y.
Proof. unfold Rf_xlength. rewrite length_app. lia. Qed.

Lemma Rf_xlength_snoc {A} (x : list A) (a : A) : Rf_xlength (x ++ [a]) = Rf_xlength x + 1.
Proof. apply Rf_xlength_app. Qed.

Lemma Rf_xlength_nonneg {A} (x : list A) : 0 <= Rf_xlength x.
Proof. unfold Rf_xlength. lia. Qed.

Lemma SET_STRING_ELT_take x n v :
  0 <= n < Rf_xlength x ->
  take (S (Z.to_nat n)) (SET_STRING_ELT x n v) = take (Z.to_nat n) x ++ [v]
  /\ Rf_xlength (SET_STRING_ELT x n v) = Rf_xlength x.
Proof.
  intros H. unfold SET_STRING_ELT.
  replace ((0 <=? n) && (n <? Rf_xlength x)) with true
    by (symmetry; apply andb_true_iff; lia).
  cbv iota. unfold Rf_xlength in *. rewrite length_insert. split; [|reflexivity].
  rewrite (take_S_r _ _ v).
  - rewrite take_insert_ge by (apply Nat.le_refl). reflexivity.
  - apply list_lookup_insert_eq. lia.
Qed.

(** Storing at an index up to the length of the buffer grows it if needed
    and keeps what was stored before. *)
Lemma str_sxp_set_take x n v :
  0 <= n <= Rf_xlength x -> 0 < Rf_xlength x ->
  take (S (Z.to_nat n)) (str_sxp_set x n v) = take (Z.to_nat n) x ++ [v]
  /\ n + 1 <= Rf_xlength (str_sxp_set x n v).
Proof.
  intros Hn Hpos. unfold str_sxp_set.
  destruct (Z.leb_spec (Rf_xlength x) n) as [Hfull|Hroom].
  - assert (n = Rf_xlength x) as -> by lia.
    assert (Rf_lengthgets x (Rf_xlength x * 2) = x ++ replicate (length x) NA_STRING) as ->.
    { unfold Rf_lengthgets, Rf_xlength.
      rewrite take_ge by lia. f_equal. f_equal. lia. }
    destruct (SET_STRING_ELT_take (x ++ replicate (length x) NA_STRING) (Rf_xlength x) v)
      as [Ht Hl].
    { rewrite Rf_xlength_app. unfold Rf_xlength in *. rewrite length_replicate. lia. }
    rewrite Ht, Hl, Rf_xlength_app. split.
    + unfold Rf_xlength. rewrite Nat2Z.id, take_app_length, take_ge by lia. reflexivity.
    + unfold Rf_xlength in *. rewrite length_replicate. lia.
  - destruct (SET_STRING_ELT_take x n v) as [Ht Hl]; [lia|].
    rewrite Ht, Hl. split; [reflexivity | lia].
Qed.

(** ** One turn of the loop *)

(** What a turn of the loop does to the local variables: it either changes
    at most [state], staying on the same side of the delimiters, or it
    completes a delimiter whose first byte was held back and adds a piece. *)
Inductive body_step (input : list byte) (i : Z) (c : byte) (l : locals) : locals -> Prop :=
| step_keep s' :
    in_html s' = in_html (state l) ->
    (forall b, pending s' = Some b -> c = b) ->
    body_step input i c l (set_state l s')
| step_piece s' :
    pending (state l) = Some c ->
    delimiter_after (if in_html (state l) then HTML else RCode) = [c; c] ->
    in_html s' = negb (in_html (state l)) ->
    pending s' = None ->
    body_step input i c l (add_piece input i l s').

Ltac body_step_case :=
  lazymatch goal with
  | |- body_step _ _ _ ?l (set_state _ ?s') => apply (step_keep _ _ _ l s')
  | |- body_step _ _ _ ?l (add_piece _ _ _ ?s') => apply (step_piece _ _ _ l s')
  | |- body_step _ _ _ ?l ?l =>
      apply (step_keep _ _ _ l (state l))
  end;
  first [ reflexivity | intros ? [= <-]; reflexivity ].

Lemma loop_body_step input i c l : body_step input i c l (loop_body input i c l).
Proof.
  destruct l as [s start ps n].
  destruct s; destruct c; cbv beta iota delta [loop_body state]; body_step_case.
Qed.

(** ** Putting pieces back together *)

Lemma joined_snoc ps : forall i p,
  joined i (ps ++ [p]) = joined i ps ++ CHAR p ++ delimiter_after (kind_at (i + length ps)).
Proof.
  induction ps as [|q ps IH]; intros i p; simpl.
  - rewrite Nat.add_0_r, app_nil_r. reflexivity.
  - rewrite IH, <- !app_assoc, Nat.add_succ_r. reflexivity.
Qed.

Lemma reassemble_cons i p ps :
  ps <> [] ->
  reassemble i (p :: ps) = CHAR p ++ delimiter_after (kind_at i) ++ reassemble (S i) ps.
Proof. destruct ps; [contradiction | reflexivity]. Qed.

Lemma reassemble_snoc ps : forall i p,
  reassemble i (ps ++ [p]) = joined i ps ++ CHAR p.
Proof.
  induction ps as [|q ps IH]; intros i p; [reflexivity|].
  rewrite <- app_comm_cons, reassemble_cons by (destruct ps; discriminate).
  rewrite IH. cbn [joined]. rewrite <- !app_assoc. reflexivity.
Qed.

(** ** The loop invariant *)

(** The pieces stored so far. *)
Definition stored (l : locals) : STRSXP := take (Z.to_nat (pieces_num l)) (pieces l).

(** [inv pre l]: the local variables [l] after the loop has read the bytes
    [pre] of the input. *)
Record inv (pre : list byte) (l : locals) : Prop := {
  inv_num : 0 <= pieces_num l <= pieceStartIdx l;
  inv_start : pieceStartIdx l <= Rf_xlength pre;
  inv_room : pieces_num l <= Rf_xlength (pieces l) /\ 0 < Rf_xlength (pieces l);
  inv_joined : joined 0 (stored l) = take (Z.to_nat (pieceStartIdx l)) pre;
  inv_kind : in_html (state l) = Nat.even (Z.to_nat (pieces_num l));
  inv_pending : forall b, pending (state l) = Some b ->
                exists p, pre = p ++ [b] /\ pieceStartIdx l <= Rf_xlength p
}.

Lemma inv_init : inv [] init.
Proof.
  split; simpl; try (unfold Rf_xlength; simpl; lia); try reflexivity.
  intros b [=].
Qed.

Lemma length_stored l :
  0 <= pieces_num l <= Rf_xlength (pieces l) -> length (stored l) = Z.to_nat (pieces_num l).
Proof.
  intros H. unfold stored, Rf_xlength in *. apply length_take_le. lia.
Qed.

(** The piece that ends before a delimiter whose second byte is at the
    offset [Rf_xlength (p ++ [c])]. *)
Lemma piece_before_delimiter p c todo start :
  0 <= start <= Rf_xlength p ->
  Rf_mkCharLenCE ((p ++ [c]) ++ c :: todo) start (Rf_xlength (p ++ [c]) - start - 1)
  = mkChar (drop (Z.to_nat start) p).
Proof.
  intros Hs. unfold Rf_mkCharLenCE. f_equal.
  rewrite take_drop_commute.
  replace (Z.to_nat start + Z.to_nat (Rf_xlength (p ++ [c]) - start - 1))%nat
    with (length p)
    by (rewrite Rf_xlength_snoc; unfold Rf_xlength in *; lia).
  rewrite <- !app_assoc, take_app_length. reflexivity.
Qed.

Section Invariant.

Variable input : list byte.
Hypothesis input_fits : Rf_xlength input <= INT_MAX.

Lemma inv_step pre c todo l :
  input = pre ++ c :: todo -> inv pre l ->
  inv (pre ++ [c]) (loop_body input (Rf_xlength pre) c l).
Proof.
  intros Hinput [Hnum Hstart [Hroom Hpos] Hjoined Hkind Hpending].
  assert (Rf_xlength pre < Rf_xlength input) as Hlt.
  { rewrite Hinput, Rf_xlength_app. unfold Rf_xlength. cbn [length]. lia. }
  pose proof (Rf_xlength_nonneg pre) as Hpre.
  destruct (loop_body_step input (Rf_xlength pre) c l)
    as [s' Hside Hheld | s' Hheld Hdelim Hside Hnone].
  - (* only [state] changes *)
    split; cbn [set_state state pieceStartIdx pieces pieces_num stored].
    + exact Hnum.
    + rewrite Rf_xlength_snoc. lia.
    + split; assumption.
    + change (joined 0 (stored l) = take (Z.to_nat (pieceStartIdx l)) (pre ++ [c])).
      rewrite take_app_le by (unfold Rf_xlength in *; lia). exact Hjoined.
    + rewrite Hside. exact Hkind.
    + intros b Hb. apply Hheld in Hb as <-. exists pre. split; [reflexivity | exact Hstart].
  - (* a delimiter is complete *)
    destruct (Hpending c Hheld) as (p & -> & Hp).
    pose proof (Rf_xlength_snoc p c) as Hlen.
    pose proof (Rf_xlength_nonneg p) as Hp0.
    unfold add_piece.
    rewrite Hinput at 1. rewrite piece_before_delimiter by lia.
    rewrite !to_int_small by (unfold INT_MAX in *; lia).
    destruct (str_sxp_set_take (pieces l) (pieces_num l)
                (mkChar (drop (Z.to_nat (pieceStartIdx l)) p))) as [Htake Hlen'];
      [lia | lia |].
    split; cbn [state pieceStartIdx pieces pieces_num].
    + lia.
    + rewrite !Rf_xlength_snoc. lia.
    + lia.
    + unfold stored at 1. cbn [pieces pieces_num].
      replace (Z.to_nat (pieces_num l + 1)) with (S (Z.to_nat (pieces_num l))) by lia.
      rewrite Htake. fold (stored l).
      rewrite joined_snoc, Hjoined, length_stored by lia.
      cbn [CHAR]. unfold kind_at. rewrite Nat.add_0_l, <- Hkind, Hdelim.
      rewrite take_app_le by (unfold Rf_xlength in *; lia).
      rewrite app_assoc, take_drop.
      rewrite take_ge.
      * rewrite <- !app_assoc. reflexivity.
      * unfold Rf_xlength in *. rewrite !length_app. cbn [length]. lia.
    + replace (Z.to_nat (pieces_num l + 1)) with (S (Z.to_nat (pieces_num l))) by lia.
      rewrite Nat.even_succ, <- Nat.negb_even, <- Hkind. exact Hside.
    + rewrite Hnone. intros b [=].
Qed.

Lemma inv_for_loop todo : forall pre l rest,
  input = pre ++ todo ++ rest -> inv pre l ->
  inv (pre ++ todo) (for_loop input todo (Rf_xlength pre) l).
Proof.
  induction todo as [|c todo IH]; intros pre l rest Hinput Hinv; cbn [for_loop].
  - rewrite app_nil_r. exact Hinv.
  - rewrite <- (Rf_xlength_snoc pre c).
    replace (pre ++ c :: todo) with ((pre ++ [c]) ++ todo)
      by (rewrite <- app_assoc; reflexivity).
    apply (IH _ _ rest).
    + rewrite <- app_assoc. exact Hinput.
    + apply (inv_step pre c (todo ++ rest)); assumption.
Qed.

(** The invariant holds after any number of turns of the loop. *)
Lemma inv_prefix pre rest : input = pre ++ rest -> inv pre (for_loop input pre 0 init).
Proof.
  intros Hinput. apply (inv_for_loop pre [] init rest); [exact Hinput | apply inv_init].
Qed.

Lemma inv_scan : inv input (scan input).
Proof. apply (inv_prefix input []). rewrite app_nil_r. reflexivity. Qed.



End Invariant.

(** ** The result of [template_dfa] *)

Lemma template_dfa_scan x :
  template_dfa [x] =
  let input := CHAR x in
  let l := scan input in
  if in_html (state l) then
    let str := Rf_mkCharLenCE input (pieceStartIdx l) (Rf_xlength input - pieceStartIdx l) in
    let pieces' := str_sxp_set (pieces l) (to_int (pieces_num l)) str in
    Ok (if pieces_num l + 1 <? Rf_xlength pieces'
        then SETLENGTH pieces' (pieces_num l + 1) else pieces')
  else Error UnterminatedCode.
Proof.
  unfold template_dfa. cbn [Rf_xlength length Z.of_nat negb Z.eqb Pos.of_succ_nat Pos.eqb].
  change (STRING_ELT [x] 0) with x. cbv zeta.
  destruct (state (scan (CHAR x))); reflexivity.
Qed.

(** On success the result is the stored pieces followed by the rest of the
    input. *)
Lemma template_dfa_pieces x :
  Rf_xlength (CHAR x) <= INT_MAX ->
  in_html (state (scan (CHAR x))) = true ->
  template_dfa [x] =
  Ok (stored (scan (CHAR x))
      ++ [mkChar (drop (Z.to_nat (pieceStartIdx (scan (CHAR x)))) (CHAR x))]).
Proof.
  intros Hfits Hhtml. rewrite template_dfa_scan. cbv zeta. rewrite Hhtml.
  destruct (inv_scan (CHAR x) Hfits) as [Hnum Hstart [Hroom Hpos] _ _ _].
  set (l := scan (CHAR x)) in *.
  rewrite to_int_small by (unfold INT_MAX in *; lia).
  assert (Rf_mkCharLenCE (CHAR x) (pieceStartIdx l) (Rf_xlength (CHAR x) - pieceStartIdx l)
          = mkChar (drop (Z.to_nat (pieceStartIdx l)) (CHAR x))) as ->.
  { unfold Rf_mkCharLenCE. rewrite take_ge; [reflexivity|].
    rewrite length_drop. unfold Rf_xlength in *. lia. }
  destruct (str_sxp_set_take (pieces l) (pieces_num l)
              (mkChar (drop (Z.to_nat (pieceStartIdx l)) (CHAR x)))) as [Htake Hlen];
    [lia | lia |].
  fold (stored l) in Htake. rewrite <- Htake. f_equal.
  unfold SETLENGTH.
  replace (Z.to_nat (pieces_num l + 1)) with (S (Z.to_nat (pieces_num l))) by lia.
  destruct (Z.ltb_spec (pieces_num l + 1)
              (Rf_xlength (str_sxp_set (pieces l) (pieces_num l)
                 (mkChar (drop (Z.to_nat (pieceStartIdx l)) (CHAR x)))))) as [_|Hge];
    [reflexivity|].
  symmetry. apply take_ge. unfold Rf_xlength in *. lia.
Qed.

Lemma template_dfa_Ok x ps :
  template_dfa [x] = Ok ps -> in_html (state (scan (CHAR x))) = true.
Proof.
  rewrite template_dfa_scan. cbv zeta.
  destruct (in_html (state (scan (CHAR x)))); [reflexivity | discriminate].
Qed.

(** ** Properties of the result *)

(** C1. For every document on which the scan succeeds, the pieces written out
    in order, with the opening delimiter put back after each HTML piece and
    the closing delimiter after each code piece, are the document, byte for
    byte.  (The bound is the one R puts on the length of every CHARSXP.) *)
Theorem round_trip (x : CHARSXP) (ps : STRSXP) :
  Rf_xlength (CHAR x) <= INT_MAX ->
  template_dfa [x] = Ok ps ->
  reassemble 0 ps = CHAR x.
Proof.
  intros Hfits Hok.
  pose proof (template_dfa_Ok x ps Hok) as Hhtml.
  rewrite (template_dfa_pieces x Hfits Hhtml) in Hok. injection Hok as <-.
  rewrite reassemble_snoc. cbn [CHAR].
  rewrite (inv_joined _ _ (inv_scan (CHAR x) Hfits)).
  apply take_drop.
Qed.

Lemma round_trip_witness :
  reassemble 0 [str "a"; str "1"; str "b"; str "2"; str "c"] = bytes "a{{1}}b{{2}}c".
Proof.
  apply (round_trip (str "a{{1}}b{{2}}c")).
  - unfold Rf_xlength, INT_MAX. simpl. lia.
  - reflexivity.
Defined.

(** C2. For every document on which the scan succeeds, the number of pieces
    is odd, hence at least 1, and the first and the last piece are HTML, the
    kind of a piece being HTML at the even positions and R code at the odd
    ones. *)
Theorem pieces_alternate (x : CHARSXP) (ps : STRSXP) :
  Rf_xlength (CHAR x) <= INT_MAX ->
  template_dfa [x] = Ok ps ->
  Nat.Odd (length ps) /\ (1 <= length ps)%nat
  /\ kind_at 0 = HTML /\ kind_at (length ps - 1) = HTML.
Proof.
  intros Hfits Hok.
  pose proof (template_dfa_Ok x ps Hok) as Hhtml.
  rewrite (template_dfa_pieces x Hfits Hhtml) in Hok. injection Hok as <-.
  destruct (inv_scan (CHAR x) Hfits) as [Hnum _ [Hroom _] _ Hkind _].
  rewrite Hhtml in Hkind.
  rewrite length_app, length_stored by lia. cbn [length].
  replace (Z.to_nat (pieces_num (scan (CHAR x))) + 1)%nat
    with (S (Z.to_nat (pieces_num (scan (CHAR x))))) by lia.
  repeat split.
  - apply Nat.odd_spec. rewrite Nat.odd_succ. symmetry. exact Hkind.
  - lia.
  - unfold kind_at. rewrite Nat.sub_succ, Nat.sub_0_r, <- Hkind. reflexivity.
Qed.

Lemma pieces_alternate_witness :
  Nat.Odd 5 /\ (1 <= 5)%nat /\ kind_at 0 = HTML /\ kind_at (5 - 1) = HTML.
Proof.
  apply (pieces_alternate (str "a{{1}}b{{2}}c") [str "a"; str "1"; str "b"; str "2"; str "c"]).
  - unfold Rf_xlength, INT_MAX. simpl. lia.
  - reflexivity.
Defined.

(** A document without an opening delimiter gives one piece, the document. *)
Lemma no_open_one_piece (x : CHARSXP) :
  Rf_xlength (CHAR x) <= INT_MAX ->
  ~ has_double "{"%byte (CHAR x) ->
  template_dfa [x] = Ok [mkChar (CHAR x)].
Proof.
  intros Hfits Hopen.
  pose proof (inv_scan (CHAR x) Hfits) as [Hnum Hstart [Hroom _] Hjoined Hkind _].
  set (l := scan (CHAR x)) in *.
  pose proof (length_stored l ltac:(lia)) as Hlen.
  destruct (stored l) as [|q r] eqn:Hstored.
  - (* no piece was stored: the scanner has been reading HTML all along *)
    cbn [length] in Hlen. rewrite <- Hlen in Hkind.
    rewrite (template_dfa_pieces x Hfits Hkind). fold l. rewrite Hstored.
    cbn [joined] in Hjoined.
    assert (Z.to_nat (pieceStartIdx l) = 0%nat) as ->.
    { apply (f_equal length) in Hjoined. rewrite length_take in Hjoined.
      unfold Rf_xlength in *. cbn [length] in Hjoined. lia. }
    reflexivity.
  - (* a stored piece is followed by an opening delimiter *)
    exfalso. apply Hopen.
    exists (CHAR q), (joined 1 r ++ drop (Z.to_nat (pieceStartIdx l)) (CHAR x)).
    rewrite <- (take_drop (Z.to_nat (pieceStartIdx l)) (CHAR x)) at 1.
    rewrite <- Hjoined. cbn [joined]. rewrite <- !app_assoc. reflexivity.
Qed.

(** C9. For every document in which neither delimiter occurs, the scan
    succeeds with exactly one piece, whose text is the whole document. *)
Theorem literal_only (x : CHARSXP) :
  Rf_xlength (CHAR x) <= INT_MAX ->
  ~ has_double "{"%byte (CHAR x) ->
  ~ has_double "}"%byte (CHAR x) ->
  template_dfa [x] = Ok [mkChar (CHAR x)]
  /\ kind_at 0 = HTML.
Proof.
  intros Hfits Hopen _. split; [|reflexivity].
  apply no_open_one_piece; assumption.
Qed.

Lemma has_doubleb_cons c x d : has_doubleb c d = true -> has_doubleb c (x :: d) = true.
Proof.
  destruct d as [|y t]; [discriminate|]. intros H.
  change (has_doubleb c (x :: y :: t))
    with ((Byte.eqb x c && Byte.eqb y c) || has_doubleb c (y :: t)).
  rewrite H. apply orb_true_r.
Qed.

Lemma has_doubleb_complete c d : has_double c d -> has_doubleb c d = true.
Proof.
  intros (a & b & ->). induction a as [|x a IH].
  - cbn. rewrite (Byte.byte_dec_lb eq_refl). reflexivity.
  - apply has_doubleb_cons, IH.
Qed.

Lemma literal_only_witness :
  template_dfa [str "a { b } c"] = Ok [str "a { b } c"] /\ kind_at 0 = HTML.
Proof.
  apply (literal_only (str "a { b } c")).
  - unfold Rf_xlength, INT_MAX. simpl. lia.
  - intros H. apply has_doubleb_complete in H. vm_compute in H. discriminate.
  - intros H. apply has_doubleb_complete in H. vm_compute in H. discriminate.
Defined.

(** C10. The empty document is no error: the scan succeeds with exactly one
    piece, the empty HTML string. *)
Theorem empty_document :
  template_dfa [mkChar []] = Ok [mkChar []] /\ kind_at 0 = HTML.
Proof. split; reflexivity. Qed.

(** C7. The closing delimiter inside the backtick-quoted name does not end
    the code; the one after it does. *)
Theorem quoted_brace_example :
  template_dfa [str "x{{ `}}` }}y"] = Ok [str "x"; str " `}}` "; str "y"].
Proof. reflexivity. Qed.

(** The other examples of the specification. *)
Example nested_delimiter_example :
  template_dfa [str "a{{1}}b{{2}}c"] = Ok [str "a"; str "1"; str "b"; str "2"; str "c"].
Proof. reflexivity. Qed.

Example error_example : template_dfa [str "a{{b"] = Error UnterminatedCode.
Proof. reflexivity. Qed.

Example trailing_brace_example : template_dfa [str "a{"] = Ok [str "a{"].
Proof. reflexivity. Qed.

(** The buffer of 10 elements doubles when the 11th piece is stored. *)
Example eleven_pieces :
  template_dfa [str "0{{1}}2{{3}}4{{5}}6{{7}}8{{9}}a"]
  = Ok [str "0"; str "1"; str "2"; str "3"; str "4"; str "5"; str "6"; str "7";
        str "8"; str "9"; str "a"].
Proof. reflexivity. Qed.

(** The missing string is scanned as the two bytes of its name. *)
Example missing_string : template_dfa [NA_STRING] = Ok [str "NA"].
Proof. reflexivity. Qed.

(** ** Errors *)

(** C6. An input that is not a character vector of length 1 is refused with
    [InvalidInput], whatever it holds: the test is the first statement of the
    function, and no piece comes with the error. *)
Theorem invalid_input (x_sxp : STRSXP) :
  length x_sxp <> 1%nat ->
  template_dfa x_sxp = Error InvalidInput
  /\ forall ps, template_dfa x_sxp <> Ok ps.
Proof.
  intros Hlen.
  assert (template_dfa x_sxp = Error InvalidInput) as ->.
  { unfold template_dfa.
    destruct (Z.eqb_spec (Rf_xlength x_sxp) 1) as [H1|_]; [|reflexivity].
    unfold Rf_xlength in H1. lia. }
  split; [reflexivity | discriminate].
Qed.

Lemma invalid_input_witness :
  template_dfa [str "a"; str "b"] = Error InvalidInput
  /\ forall ps, template_dfa [str "a"; str "b"] <> Ok ps.
Proof. apply invalid_input. simpl. lia. Defined.

Example invalid_input_absent : template_dfa [] = Error InvalidInput.
Proof. reflexivity. Qed.

(** C5. The scan of a document fails with [UnterminatedCode] exactly when the
    state after the last byte is neither [html] nor [html_oneOpenBracket];
    the failure comes with no pieces; and a document that ends just after
    one opening brace is scanned without error. *)
Theorem unterminated_iff (x : CHARSXP) :
  (template_dfa [x] = Error UnterminatedCode
   <-> state (scan (CHAR x)) <> html /\ state (scan (CHAR x)) <> html_oneOpenBracket)
  /\ (template_dfa [x] = Error UnterminatedCode -> forall ps, template_dfa [x] <> Ok ps)
  /\ (state (scan (CHAR x)) = html_oneOpenBracket -> exists ps, template_dfa [x] = Ok ps).
Proof.
  rewrite template_dfa_scan. cbv zeta.
  destruct (state (scan (CHAR x))) eqn:Hstate; cbn [in_html];
    (split; [split; [try discriminate; intros _; split; discriminate
                    | intros [H1 H2]; try reflexivity; congruence]
            | split; [intros H; try discriminate H; intros ps; discriminate
                     | intros H; try discriminate H; eexists; reflexivity]]).
Qed.

Lemma unterminated_iff_witness :
  template_dfa [str "a{{b}"] = Error UnterminatedCode.
Proof.
  apply (unterminated_iff (str "a{{b}")). split; vm_compute; discriminate.
Defined.

(** ** The states inside the code *)

(** C8. In a single-quoted string, a double-quoted string and a
    backtick-quoted name, a backslash leads to the escape state, and the
    escape state goes back to the quoted state on the next byte whatever that
    byte is: a closing quote after a backslash does not end the region. *)
Theorem escaped_byte_is_literal :
  escapes code_string1 code_string1_backslash
  /\ escapes code_string2 code_string2_backslash
  /\ escapes code_backtick code_backtick_backslash.
Proof.
  repeat split; destruct c; reflexivity.
Qed.

Example escaped_quote_example :
  template_dfa [str "{{'\'}}'}}"] = Ok [R_BlankString; str "'\'}}'"; R_BlankString].
Proof. reflexivity. Qed.

(** The turn of the loop in state [code_comment_oneCloseBracket]. *)
Lemma comment_oneCloseBracket_step input i c start ps n :
  loop_body input i c (mkLocals code_comment_oneCloseBracket start ps n)
  = if Byte.eqb c "}"%byte
    then add_piece input i (mkLocals code_comment_oneCloseBracket start ps n) html
    else mkLocals code start ps n.
Proof. destruct c; reflexivity. Qed.

(** C4. In state [code_comment_oneCloseBracket] a closing brace adds the code
    piece and leads to [html]; any other byte leads to [code], not back to
    [code_comment].  In the document below the comment holds a single
    closing brace: the blank after it puts the scanner back into the code,
    the quote that follows opens a string, and the closing delimiter at the
    end of the line is read as part of that string. *)
Theorem comment_left_after_close_bracket :
  let input := bytes "{{#} '}}" in
  let l := for_loop input (bytes "{{#}") 0 init in
  state l = code_comment_oneCloseBracket
  /\ state (loop_body input 4 " "%byte l) = code
  /\ state (loop_body input 4 "}"%byte l) = html
  /\ pieces_num (loop_body input 4 "}"%byte l) = pieces_num l + 1
  /\ template_dfa [mkChar input] = Error UnterminatedCode.
Proof. repeat split. Qed.

(** C3, as the specification has it, fails for the line comment: after the
    first three bytes of the document below the scanner is in the comment,
    and the two closing braces that follow add the code piece and lead to
    [html]. *)
Lemma close_in_comment_closes :
  let input := bytes "{{#}}" in
  let l := for_loop input (bytes "{{#") 0 init in
  let l' := for_loop input (bytes "}}") 3 l in
  state l = code_comment /\ pieces_num l = 1
  /\ state l' = html /\ pieces_num l' = 2
  /\ template_dfa [mkChar input] = Ok [R_BlankString; str "#"; R_BlankString].
Proof. repeat split. Qed.

(** C3, amended.  Two closing braces read in a single-quoted string, in a
    double-quoted string or in a backtick-quoted name, also after a
    backslash, change no local variable but the escape state, and a closing
    brace read in a percent operator changes none: the code goes on.  Two
    closing braces read in a line comment add the code piece and lead to
    [html]. *)
Theorem close_in_lexical_contexts :
  let close2 := ["}"%byte; "}"%byte] in
  (blind_to close2 code_string1 /\ blind_to close2 code_string2
   /\ blind_to close2 code_backtick)
  /\ (forall input i start ps n,
        for_loop input close2 i (mkLocals code_string1_backslash start ps n)
        = mkLocals code_string1 start ps n
        /\ for_loop input close2 i (mkLocals code_string2_backslash start ps n)
           = mkLocals code_string2 start ps n
        /\ for_loop input close2 i (mkLocals code_backtick_backslash start ps n)
           = mkLocals code_backtick start ps n)
  /\ (blind_to ["}"%byte] code_percentOp /\ blind_to close2 code_percentOp)
  /\ (forall input i start ps n,
        for_loop input close2 i (mkLocals code_comment start ps n)
        = add_piece input (i + 1)
            (mkLocals code_comment_oneCloseBracket start ps n) html).
Proof. repeat split. Qed.

Example close_in_string_example :
  template_dfa [str "{{ '}}' }}"] = Ok [R_BlankString; str " '}}' "; R_BlankString].
Proof. reflexivity. Qed.

Example close_in_percent_example :
  template_dfa [str "{{ a %}% b }}"] = Ok [R_BlankString; str " a %}% b "; R_BlankString].
Proof. reflexivity. Qed.


(** * Further properties of [str_sxp_set] and [template_dfa] *)

(** ** The growing buffer *)



(** ** No call of the R API out of range *)



(** ** The automaton inside the loop *)

(** The state a turn of the loop leads to, read off [loop_body]. *)
Definition next (s : State) (c : byte) : State :=
  state (loop_body [] 0 c (mkLocals s 0 [] 0)).

(** The byte [c] completes the delimiter that state [s] holds back. *)
Definition completes (s : State) (c : byte) : bool :=
  match pending s with
  | Some b => Byte.eqb b c
  | None => false
  end.

(** The sum of the lengths of the pieces. *)
Definition total_length (ps : STRSXP) : Z :=
  foldr (fun p acc => Rf_xlength (CHAR p) + acc) 0 ps.

Lemma loop_body_eq input i c l :
  loop_body input i c l
  = if completes (state l) c
    then add_piece input i l (next (state l) c)
    else set_state l (next (state l) c).
Proof. destruct l as [s start ps n]. destruct s; destruct c; reflexivity. Qed.

Lemma state_loop_body input i c l : state (loop_body input i c l) = next (state l) c.
Proof. rewrite loop_body_eq. destruct (completes (state l) c); reflexivity. Qed.

Lemma for_loop_app input a : forall b i l,
  for_loop input (a ++ b) i l = for_loop input b (i + Rf_xlength a) (for_loop input a i l).
Proof.
  induction a as [|c a IH]; intros b i l.
  - cbn. rewrite Z.add_0_r. reflexivity.
  - cbn [app for_loop]. rewrite IH. f_equal.
    unfold Rf_xlength. cbn [length]. lia.
Qed.

Lemma state_for_loop input todo : forall i l,
  state (for_loop input todo i l) = fold_left next todo (state l).
Proof.
  induction todo as [|c todo IH]; intros i l; [reflexivity|].
  cbn [for_loop fold_left]. rewrite IH, state_loop_body. reflexivity.
Qed.

(** The state after a run of the loop depends on the state before it and on
    the bytes read, and on nothing else: not on the offset, not on the
    pieces stored, not on the rest of the document. *)
Theorem state_depends_on_bytes (input input' todo : list byte) (i i' : Z) (l l' : locals) :
  state l = state l' ->
  state (for_loop input todo i l) = state (for_loop input' todo i' l').
Proof. intros H. rewrite !state_for_loop, H. reflexivity. Qed.

Lemma state_depends_on_bytes_witness :
  state (for_loop (bytes "{{a}}") (bytes "a}}") 2 (mkLocals code 2 [R_BlankString] 1))
  = state (for_loop (bytes "a}}b") (bytes "a}}") 0 (mkLocals code 7 [] 0)).
Proof. apply state_depends_on_bytes. reflexivity. Defined.

Lemma template_dfa_error_iff x :
  template_dfa [x] = Error UnterminatedCode <-> in_html (state (scan (CHAR x))) = false.
Proof.
  rewrite template_dfa_scan. cbv zeta.
  destruct (in_html (state (scan (CHAR x)))); split; (reflexivity || discriminate).
Qed.

Lemma state_scan_app a b :
  state (scan (a ++ b)) = fold_left next b (state (scan a)).
Proof.
  unfold scan. rewrite for_loop_app, !state_for_loop. reflexivity.
Qed.

(** When the scan of a document ends in state [html], the scan of that
    document followed by a second one fails exactly when the scan of the
    second one alone fails. *)
Theorem concat_fails_iff (a b : list byte) :
  state (scan a) = html ->
  (template_dfa [mkChar (a ++ b)] = Error UnterminatedCode
   <-> template_dfa [mkChar b] = Error UnterminatedCode).
Proof.
  intros Ha. rewrite !template_dfa_error_iff. cbn [CHAR].
  rewrite state_scan_app, Ha. unfold scan. rewrite state_for_loop. reflexivity.
Qed.

Lemma concat_fails_iff_witness :
  template_dfa [mkChar (bytes "a{{b}}c" ++ bytes "d{{e")] = Error UnterminatedCode
  <-> template_dfa [mkChar (bytes "d{{e")] = Error UnterminatedCode.
Proof. apply concat_fails_iff. reflexivity. Defined.

(** ** The sizes of the pieces *)

Lemma total_length_app ps qs : total_length (ps ++ qs) = total_length ps + total_length qs.
Proof.
  induction ps as [|p ps IH]; cbn; [reflexivity|].
  fold (total_length (ps ++ qs)) (total_length ps). rewrite IH. lia.
Qed.

Lemma joined_length ps : forall i,
  Rf_xlength (joined i ps) = total_length ps + 2 * Rf_xlength ps.
Proof.
  induction ps as [|p ps IH]; intros i; [reflexivity|].
  cbn [joined total_length foldr]. fold (total_length ps).
  rewrite !Rf_xlength_app, IH.
  replace (Rf_xlength (delimiter_after (kind_at i))) with 2
    by (destruct (kind_at i); reflexivity).
  unfold Rf_xlength. cbn [length]. lia.
Qed.

Lemma total_length_nonneg ps : 0 <= total_length ps.
Proof.
  induction ps as [|p ps IH]; cbn; [lia|].
  fold (total_length ps). pose proof (Rf_xlength_nonneg (CHAR p)). lia.
Qed.

Lemma total_length_lookup ps : forall k p,
  ps !! k = Some p -> Rf_xlength (CHAR p) <= total_length ps.
Proof.
  induction ps as [|q ps IH]; intros k p Hk; [discriminate|].
  cbn [total_length foldr]. fold (total_length ps).
  destruct k as [|k]; cbn in Hk.
  - injection Hk as ->. pose proof (total_length_nonneg ps). lia.
  - apply IH in Hk. pose proof (Rf_xlength_nonneg (CHAR q)). lia.
Qed.

Lemma template_dfa_size x ps :
  Rf_xlength (CHAR x) <= INT_MAX ->
  template_dfa [x] = Ok ps ->
  Rf_xlength (CHAR x) = total_length ps + 2 * (Rf_xlength ps - 1).
Proof.
  intros Hfits Hok.
  pose proof (template_dfa_Ok x ps Hok) as Hhtml.
  rewrite (template_dfa_pieces x Hfits Hhtml) in Hok. injection Hok as <-.
  pose proof (inv_joined _ _ (inv_scan (CHAR x) Hfits)) as Hjoined.
  set (l := scan (CHAR x)) in *.
  rewrite <- (take_drop (Z.to_nat (pieceStartIdx l)) (CHAR x)) at 1.
  rewrite <- Hjoined, Rf_xlength_app, joined_length, total_length_app, Rf_xlength_snoc.
  cbn. lia.
Qed.

(** On success the document has as many bytes as the pieces together plus
    two for each delimiter, one delimiter standing between each piece and
    the next; a document of [n] bytes gives at most [n / 2 + 1] pieces. *)
Theorem size_accounting (x : CHARSXP) (ps : STRSXP) :
  Rf_xlength (CHAR x) <= INT_MAX ->
  template_dfa [x] = Ok ps ->
  Rf_xlength (CHAR x) = total_length ps + 2 * (Rf_xlength ps - 1)
  /\ Rf_xlength ps <= Rf_xlength (CHAR x) / 2 + 1.
Proof.
  intros Hfits Hok.
  pose proof (template_dfa_size x ps Hfits Hok) as Hsize.
  split; [exact Hsize|].
  pose proof (total_length_nonneg ps).
  assert (Rf_xlength ps - 1 <= Rf_xlength (CHAR x) / 2)
    by (apply Z.div_le_lower_bound; lia).
  lia.
Qed.

Lemma size_accounting_witness :
  let ps := [str "a"; str "1"; str "b"; str "2"; str "c"] in
  Rf_xlength (CHAR (str "a{{1}}b{{2}}c")) = total_length ps + 2 * (Rf_xlength ps - 1)
  /\ Rf_xlength ps <= Rf_xlength (CHAR (str "a{{1}}b{{2}}c")) / 2 + 1.
Proof.
  apply (size_accounting (str "a{{1}}b{{2}}c")).
  - unfold Rf_xlength, INT_MAX. simpl. lia.
  - reflexivity.
Defined.

(** ** One turn of the loop, under the invariant *)

Lemma completes_pending s c : completes s c = true -> pending s = Some c.
Proof.
  unfold completes. destruct (pending s) as [b|]; [|discriminate].
  intros H. apply Byte.byte_dec_bl in H. congruence.
Qed.

(** A turn of the loop either changes [state] only, or adds the piece that
    lies between [pieceStartIdx] and the delimiter just completed. *)
Lemma turn_cases input pre c todo l :
  Rf_xlength input <= INT_MAX ->
  input = pre ++ c :: todo -> inv pre l ->
  let l' := loop_body input (Rf_xlength pre) c l in
  (completes (state l) c = false /\ l' = set_state l (next (state l) c))
  \/ (completes (state l) c = true
      /\ exists p, pre = p ++ [c] /\ 0 <= pieceStartIdx l <= Rf_xlength p
         /\ state l' = next (state l) c
         /\ pieceStartIdx l' = Rf_xlength pre + 1
         /\ pieces_num l' = pieces_num l + 1
         /\ stored l' = stored l ++ [mkChar (drop (Z.to_nat (pieceStartIdx l)) p)]).
Proof.
  intros Hfits Hinput [Hnum Hstart [Hroom Hpos] _ _ Hpending] l'.
  unfold l'. rewrite loop_body_eq.
  destruct (completes (state l) c) eqn:Hc; [right | left; split; reflexivity].
  split; [reflexivity|].
  destruct (Hpending c (completes_pending _ _ Hc)) as (p & -> & Hp).
  exists p. split; [reflexivity|]. split; [lia|].
  assert (Rf_xlength (p ++ [c]) < Rf_xlength input) as Hlt.
  { rewrite Hinput, (Rf_xlength_app (p ++ [c])). unfold Rf_xlength. cbn [length]. lia. }
  pose proof (Rf_xlength_snoc p c) as Hlen.
  pose proof (Rf_xlength_nonneg p) as Hp0.
  assert (Rf_mkCharLenCE input (pieceStartIdx l) (Rf_xlength (p ++ [c]) - pieceStartIdx l - 1)
          = mkChar (drop (Z.to_nat (pieceStartIdx l)) p)) as Hpiece
    by (rewrite Hinput; apply piece_before_delimiter; lia).
  unfold add_piece. rewrite Hpiece.
  rewrite !to_int_small by (unfold INT_MAX in *; lia).
  destruct (str_sxp_set_take (pieces l) (pieces_num l)
              (mkChar (drop (Z.to_nat (pieceStartIdx l)) p))) as [Htake _];
    [lia | lia |].
  repeat split. unfold stored. cbn [pieces pieces_num].
  replace (Z.to_nat (pieces_num l + 1)) with (S (Z.to_nat (pieces_num l))) by lia.
  exact Htake.
Qed.

(** ** The pieces do not depend on what follows *)

Lemma loop_body_same_piece input input' pre c todo todo' l :
  Rf_xlength input <= INT_MAX -> Rf_xlength input' <= INT_MAX ->
  input = pre ++ c :: todo -> input' = pre ++ c :: todo' -> inv pre l ->
  loop_body input (Rf_xlength pre) c l = loop_body input' (Rf_xlength pre) c l.
Proof.
  intros Hfits Hfits' Hinput Hinput' Hinv.
  rewrite !loop_body_eq.
  destruct (completes (state l) c) eqn:Hc; [|reflexivity].
  destruct (inv_pending _ _ Hinv c (completes_pending _ _ Hc)) as (p & -> & Hp).
  pose proof (inv_num _ _ Hinv).
  assert (Rf_mkCharLenCE input (pieceStartIdx l) (Rf_xlength (p ++ [c]) - pieceStartIdx l - 1)
          = Rf_mkCharLenCE input' (pieceStartIdx l) (Rf_xlength (p ++ [c]) - pieceStartIdx l - 1))
    as Hpiece
    by (rewrite Hinput, Hinput', !piece_before_delimiter by lia; reflexivity).
  unfold add_piece. rewrite Hpiece. reflexivity.
Qed.

Lemma for_loop_same_pieces todo : forall pre l r r',
  Rf_xlength (pre ++ todo ++ r) <= INT_MAX ->
  Rf_xlength (pre ++ todo ++ r') <= INT_MAX ->
  inv pre l ->
  for_loop (pre ++ todo ++ r) todo (Rf_xlength pre) l
  = for_loop (pre ++ todo ++ r') todo (Rf_xlength pre) l.
Proof.
  induction todo as [|c todo IH]; intros pre l r r' Hfits Hfits' Hinv; [reflexivity|].
  cbn [for_loop].
  rewrite (loop_body_same_piece (pre ++ (c :: todo) ++ r) (pre ++ (c :: todo) ++ r')
             pre c (todo ++ r) (todo ++ r') l) by (assumption || reflexivity).
  rewrite <- (Rf_xlength_snoc pre c).
  replace (pre ++ (c :: todo) ++ r) with ((pre ++ [c]) ++ todo ++ r)
    in * by (rewrite <- app_assoc; reflexivity).
  replace (pre ++ (c :: todo) ++ r') with ((pre ++ [c]) ++ todo ++ r')
    in * by (rewrite <- app_assoc; reflexivity).
  apply IH; try assumption.
  apply (inv_step ((pre ++ [c]) ++ todo ++ r') Hfits' pre c (todo ++ r')); [|exact Hinv].
  rewrite <- app_assoc. reflexivity.
Qed.

Lemma for_loop_prefix pre rest :
  Rf_xlength (pre ++ rest) <= INT_MAX ->
  for_loop (pre ++ rest) pre 0 init = scan pre.
Proof.
  intros Hfits. unfold scan.
  pose proof (for_loop_same_pieces pre [] init rest [] ) as H.
  cbn [app] in H. rewrite app_nil_r in H. apply H.
  - exact Hfits.
  - rewrite Rf_xlength_app in Hfits. pose proof (Rf_xlength_nonneg rest). lia.
  - apply inv_init.
Qed.

(** The local variables after the loop has read a part of a document are
    those at the end of the scan of that part alone: no piece stored, and
    nothing else, depends on a byte that is still to be read. *)
Theorem no_look_ahead (pre rest : list byte) :
  Rf_xlength (pre ++ rest) <= INT_MAX ->
  for_loop (pre ++ rest) pre 0 init = scan pre.
Proof. apply for_loop_prefix. Qed.

Lemma no_look_ahead_witness :
  for_loop (bytes "a{{b}}c" ++ bytes "{{d") (bytes "a{{b}}c") 0 init = scan (bytes "a{{b}}c").
Proof.
  apply no_look_ahead. unfold Rf_xlength, INT_MAX. simpl. lia.
Defined.

(** ** What the pieces hold *)

Definition held_open (o : option byte) (c : byte) : bool :=
  match o with
  | Some y => Byte.eqb y c
  | None => false
  end.

Lemma has_doubleb_snoc c q : forall x,
  has_doubleb c (q ++ [x]) = has_doubleb c q || (held_open (last q) c && Byte.eqb x c).
Proof.
  induction q as [|a q IH]; intros x; [reflexivity|].
  destruct q as [|b t].
  - cbn. rewrite orb_false_r. reflexivity.
  - change (has_doubleb c ((a :: b :: t) ++ [x]))
      with ((Byte.eqb a c && Byte.eqb b c) || has_doubleb c ((b :: t) ++ [x])).
    change (has_doubleb c (a :: b :: t))
      with ((Byte.eqb a c && Byte.eqb b c) || has_doubleb c (b :: t)).
    rewrite IH, last_cons_cons, orb_assoc. reflexivity.
Qed.

Lemma next_html_other c :
  completes html_oneOpenBracket c = false ->
  next html_oneOpenBracket c = html /\ Byte.eqb c "{"%byte = false.
Proof. destruct c; cbv; intros H; split; (reflexivity || discriminate). Qed.

Lemma next_from_code s c :
  in_html s = false ->
  in_html (next s c) = completes s c /\ (completes s c = true -> next s c = html).
Proof.
  destruct s; try discriminate; intros _; destruct c; split;
    first [reflexivity | intros H; first [reflexivity | discriminate H]].
Qed.

Lemma next_html_open s :
  completes s "{"%byte = false -> next s "{"%byte <> html.
Proof. destruct s; cbv; intros H; discriminate. Qed.

(** [pieces_inv pre l]: after the bytes [pre], no stored piece is the missing
    string, no stored HTML piece holds an opening delimiter, and neither
    does the HTML read since the last piece. *)
Record pieces_inv (pre : list byte) (l : locals) : Prop := {
  pi_chars : Forall (fun p => p <> NA_STRING) (stored l);
  pi_html : forall k p, stored l !! k = Some p -> Nat.even k = true ->
            has_doubleb "{"%byte (CHAR p) = false;
  pi_cur : in_html (state l) = true ->
           has_doubleb "{"%byte (drop (Z.to_nat (pieceStartIdx l)) pre) = false;
  pi_last : state l = html ->
            held_open (last (drop (Z.to_nat (pieceStartIdx l)) pre)) "{"%byte = false
}.

Lemma pieces_inv_init : pieces_inv [] init.
Proof.
  split; try reflexivity.
  - apply Forall_nil. exact I.
  - intros k p Hk. discriminate Hk.
Qed.

Lemma pieces_inv_step input pre c todo l :
  Rf_xlength input <= INT_MAX ->
  input = pre ++ c :: todo -> inv pre l -> pieces_inv pre l ->
  pieces_inv (pre ++ [c]) (loop_body input (Rf_xlength pre) c l).
Proof.
  intros Hfits Hinput Hinv [Hchars Hhtml Hcur Hlast].
  pose proof (inv_start _ _ Hinv) as Hstart.
  pose proof (inv_num _ _ Hinv) as Hnum.
  pose proof (inv_room _ _ Hinv) as [Hroom _].
  pose proof (inv_kind _ _ Hinv) as Hkind.
  destruct (turn_cases input pre c todo l Hfits Hinput Hinv)
    as [[Hc Hl'] | (Hc & p & Hpre & Hp & Hst & Hs & Hn & Hstored)].
  - (* only [state] changes *)
    rewrite Hl'.
    assert (drop (Z.to_nat (pieceStartIdx l)) (pre ++ [c])
            = drop (Z.to_nat (pieceStartIdx l)) pre ++ [c]) as Hdrop
      by (apply drop_app_le; unfold Rf_xlength in *; lia).
    split; cbn [set_state state pieceStartIdx];
      change (stored (set_state l (next (state l) c))) with (stored l).
    + exact Hchars.
    + exact Hhtml.
    + intros Hside. rewrite Hdrop, has_doubleb_snoc.
      destruct (in_html (state l)) eqn:Hl.
      * rewrite Hcur by reflexivity. cbn [orb].
        destruct (state l) eqn:Hstate; try discriminate Hl.
        -- rewrite Hlast by reflexivity. reflexivity.
        -- destruct (next_html_other c Hc) as [_ ->]. apply andb_false_r.
      * destruct (next_from_code (state l) c Hl) as [H1 _]. congruence.
    + intros Hnext. rewrite Hdrop, last_snoc. cbn [held_open].
      destruct (Byte.eqb c "{"%byte) eqn:E; [|reflexivity].
      apply Byte.byte_dec_bl in E. subst c.
      exfalso. exact (next_html_open _ Hc Hnext).
  - (* a piece is added *)
    subst pre.
    assert (drop (Z.to_nat (pieceStartIdx l)) (p ++ [c])
            = drop (Z.to_nat (pieceStartIdx l)) p ++ [c]) as Hdrop
      by (apply drop_app_le; unfold Rf_xlength in *; lia).
    assert (drop (Z.to_nat (pieceStartIdx (loop_body input (Rf_xlength (p ++ [c])) c l)))
              ((p ++ [c]) ++ [c]) = []) as Hnil.
    { apply drop_ge. rewrite Hs. unfold Rf_xlength. rewrite !length_app. cbn [length]. lia. }
    split; rewrite ?Hnil, ?Hstored; try reflexivity.
    + apply Forall_app. split; [exact Hchars|].
      apply Forall_cons. split; [discriminate | apply Forall_nil; exact I].
    + intros k q Hk Heven.
      apply lookup_snoc_Some in Hk as [[_ Hk] | [-> <-]]; [exact (Hhtml k q Hk Heven)|].
      rewrite length_stored in Heven by lia.
      rewrite <- Hkind in Heven. specialize (Hcur Heven).
      rewrite Hdrop, has_doubleb_snoc in Hcur.
      apply orb_false_iff in Hcur as [Hcur _]. exact Hcur.
Qed.

Lemma pieces_inv_for_loop input todo :
  Rf_xlength input <= INT_MAX ->
  forall pre l rest,
    input = pre ++ todo ++ rest -> inv pre l -> pieces_inv pre l ->
    pieces_inv (pre ++ todo) (for_loop input todo (Rf_xlength pre) l).
Proof.
  intros Hfits.
  induction todo as [|c todo IH]; intros pre l rest Hinput Hinv Hpi; cbn [for_loop].
  - rewrite app_nil_r. exact Hpi.
  - rewrite <- (Rf_xlength_snoc pre c).
    replace (pre ++ c :: todo) with ((pre ++ [c]) ++ todo)
      by (rewrite <- app_assoc; reflexivity).
    apply (IH _ _ rest).
    + rewrite <- app_assoc. exact Hinput.
    + apply (inv_step input Hfits pre c (todo ++ rest)); assumption.
    + apply (pieces_inv_step input pre c (todo ++ rest)); assumption.
Qed.

Lemma pieces_inv_scan input :
  Rf_xlength input <= INT_MAX -> pieces_inv input (scan input).
Proof.
  intros Hfits.
  apply (pieces_inv_for_loop input input Hfits [] init []).
  - rewrite app_nil_r. reflexivity.
  - apply inv_init.
  - apply pieces_inv_init.
Qed.

Lemma template_dfa_pieces_inv x ps :
  Rf_xlength (CHAR x) <= INT_MAX ->
  template_dfa [x] = Ok ps ->
  Forall (fun p => p <> NA_STRING) ps
  /\ forall k p, ps !! k = Some p -> Nat.even k = true ->
     has_doubleb "{"%byte (CHAR p) = false.
Proof.
  intros Hfits Hok.
  pose proof (template_dfa_Ok x ps Hok) as Hside.
  rewrite (template_dfa_pieces x Hfits Hside) in Hok. injection Hok as <-.
  destruct (pieces_inv_scan (CHAR x) Hfits) as [Hchars Hhtml Hcur _].
  split.
  - apply Forall_app. split; [exact Hchars|].
    apply Forall_cons. split; [discriminate | apply Forall_nil; exact I].
  - intros k p Hk Heven.
    apply lookup_snoc_Some in Hk as [[_ Hk] | [_ <-]]; [exact (Hhtml k p Hk Heven)|].
    exact (Hcur Hside).
Qed.

Lemma has_doubleb_false c d : has_doubleb c d = false -> ~ has_double c d.
Proof. intros H Hd. apply has_doubleb_complete in Hd. congruence. Qed.

(** The buffer is filled with blank strings when it is allocated and with
    missing strings when it grows; none of the latter comes out: on success
    no piece is the missing string. *)
Theorem no_missing_piece (x : CHARSXP) (ps : STRSXP) :
  Rf_xlength (CHAR x) <= INT_MAX ->
  template_dfa [x] = Ok ps ->
  Forall (fun p => p <> NA_STRING) ps.
Proof. intros Hfits Hok. apply (template_dfa_pieces_inv x ps Hfits Hok). Qed.

Lemma no_missing_piece_witness :
  Forall (fun p => p <> NA_STRING)
    [str "0"; str "1"; str "2"; str "3"; str "4"; str "5"; str "6"; str "7";
     str "8"; str "9"; str "a"; str "b"; str "c"].
Proof.
  apply (no_missing_piece (str "0{{1}}2{{3}}4{{5}}6{{7}}8{{9}}a{{b}}c")).
  - unfold Rf_xlength, INT_MAX. simpl. lia.
  - reflexivity.
Defined.

(** On success no HTML piece holds an opening delimiter: the code starts at
    the first one. *)
Theorem html_pieces_have_no_open (x : CHARSXP) (ps : STRSXP) (k : nat) (p : CHARSXP) :
  Rf_xlength (CHAR x) <= INT_MAX ->
  template_dfa [x] = Ok ps ->
  ps !! k = Some p -> kind_at k = HTML ->
  ~ has_double "{"%byte (CHAR p).
Proof.
  intros Hfits Hok Hk Hkind.
  apply has_doubleb_false.
  apply (proj2 (template_dfa_pieces_inv x ps Hfits Hok) k p Hk).
  unfold kind_at in Hkind. destruct (Nat.even k); [reflexivity | discriminate].
Qed.

Lemma html_pieces_have_no_open_witness :
  ~ has_double "{"%byte (CHAR (str "b{")).
Proof.
  apply (html_pieces_have_no_open (str "a{{ '{{' }}b{")
           [str "a"; str " '{{' "; str "b{"] 2 (str "b{")).
  - unfold Rf_xlength, INT_MAX. simpl. lia.
  - reflexivity.
  - reflexivity.
  - reflexivity.
Defined.

(** The scan of a document gives a single piece exactly when the document
    holds no opening delimiter. *)
Theorem one_piece_iff (x : CHARSXP) :
  Rf_xlength (CHAR x) <= INT_MAX ->
  ((exists p, template_dfa [x] = Ok [p]) <-> ~ has_double "{"%byte (CHAR x)).
Proof.
  intros Hfits. split.
  - intros [p Hok].
    pose proof (proj2 (template_dfa_pieces_inv x [p] Hfits Hok) 0%nat p eq_refl eq_refl) as Hp.
    pose proof (template_dfa_Ok x [p] Hok) as Hside.
    pose proof Hok as Hok'.
    rewrite (template_dfa_pieces x Hfits Hside) in Hok'. injection Hok' as Hps.
    pose proof (inv_joined _ _ (inv_scan (CHAR x) Hfits)) as Hjoined.
    pose proof (inv_start _ _ (inv_scan (CHAR x) Hfits)) as Hstart.
    destruct (stored (scan (CHAR x))) as [|q r]; [|destruct r; discriminate Hps].
    cbn [app] in Hps. injection Hps as <-. cbn [joined] in Hjoined.
    assert (Z.to_nat (pieceStartIdx (scan (CHAR x))) = 0%nat) as Hzero.
    { apply (f_equal length) in Hjoined. rewrite length_take in Hjoined.
      unfold Rf_xlength in *. cbn [length] in Hjoined. lia. }
    rewrite Hzero in Hp. apply has_doubleb_false. exact Hp.
  - intros Hopen. exists (mkChar (CHAR x)). apply no_open_one_piece; assumption.
Qed.

Lemma one_piece_iff_witness :
  (exists p, template_dfa [str "a{b}}c"] = Ok [p]) <-> ~ has_double "{"%byte (CHAR (str "a{b}}c")).
Proof.
  apply one_piece_iff. unfold Rf_xlength, INT_MAX. simpl. lia.
Defined.

(** An HTML piece of a successful scan is a document of its own: scanned
    again, it comes back as the single piece of the result. *)
Theorem html_piece_rescans (x : CHARSXP) (ps : STRSXP) (k : nat) (p : CHARSXP) :
  Rf_xlength (CHAR x) <= INT_MAX ->
  template_dfa [x] = Ok ps ->
  ps !! k = Some p -> kind_at k = HTML ->
  template_dfa [p] = Ok [p].
Proof.
  intros Hfits Hok Hk Hkind.
  destruct (template_dfa_pieces_inv x ps Hfits Hok) as [Hchars Hhtml].
  assert (p = mkChar (CHAR p)) as Hp.
  { rewrite Forall_lookup in Hchars. specialize (Hchars k p Hk).
    destruct p; [contradiction | reflexivity]. }
  rewrite Hp at 2. apply no_open_one_piece.
  - pose proof (template_dfa_size x ps Hfits Hok) as Hsize.
    pose proof (total_length_lookup ps k p Hk).
    assert (1 <= Rf_xlength ps).
    { apply lookup_lt_Some in Hk. unfold Rf_xlength. lia. }
    lia.
  - apply has_doubleb_false, (Hhtml k p Hk).
    unfold kind_at in Hkind. destruct (Nat.even k); [reflexivity | discriminate].
Qed.

Lemma html_piece_rescans_witness :
  template_dfa [str "b{"] = Ok [str "b{"].
Proof.
  apply (html_piece_rescans (str "a{{ '{{' }}b{")
           [str "a"; str " '{{' "; str "b{"] 2 (str "b{")).
  - unfold Rf_xlength, INT_MAX. simpl. lia.
  - reflexivity.
  - reflexivity.
  - reflexivity.
Defined.

(** ** Two documents, one after the other *)

Section Concat.

Variables a b : list byte.
Hypothesis fits : Rf_xlength (a ++ b) <= INT_MAX.
Hypothesis a_html : state (scan a) = html.

(** [sim lA lB]: the local variables [lA] of the scan of [a ++ b] and [lB]
    of the scan of [b] alone, after the same bytes of [b]. *)
Record sim (lA lB : locals) : Prop := {
  sim_state : state lA = state lB;
  sim_num : pieces_num lA = pieces_num (scan a) + pieces_num lB;
  sim_first : pieces_num lB = 0 ->
              pieceStartIdx lA = pieceStartIdx (scan a) /\ pieceStartIdx lB = 0
              /\ stored lA = stored (scan a);
  sim_later : 0 < pieces_num lB ->
              pieceStartIdx lA = Rf_xlength a + pieceStartIdx lB
              /\ exists hb tb,
                  stored lB = hb :: tb
                  /\ stored lA
                     = stored (scan a)
                       ++ mkChar (drop (Z.to_nat (pieceStartIdx (scan a))) a ++ CHAR hb) :: tb
}.

Lemma fits_a : Rf_xlength a <= INT_MAX.
Proof. rewrite Rf_xlength_app in fits. pose proof (Rf_xlength_nonneg b). lia. Qed.

Lemma fits_b : Rf_xlength b <= INT_MAX.
Proof. rewrite Rf_xlength_app in fits. pose proof (Rf_xlength_nonneg a). lia. Qed.

Lemma sim_init : sim (scan a) init.
Proof.
  split; cbn [state pieceStartIdx pieces_num init].
  - exact a_html.
  - lia.
  - intros _. repeat split.
  - lia.
Qed.

Lemma sim_step q c r lA lB :
  b = q ++ c :: r -> inv (a ++ q) lA -> inv q lB -> sim lA lB ->
  sim (loop_body (a ++ b) (Rf_xlength (a ++ q)) c lA) (loop_body b (Rf_xlength q) c lB).
Proof.
  intros Hb HinvA HinvB [Hstate Hnum Hfirst Hlater].
  assert (a ++ b = (a ++ q) ++ c :: r) as Hab by (rewrite Hb, <- app_assoc; reflexivity).
  pose proof (inv_num _ _ HinvB) as HnumB.
  pose proof (inv_room _ _ HinvB) as [HroomB _].
  pose proof (inv_start _ _ (inv_scan a fits_a)) as HstartA.
  pose proof (inv_num _ _ (inv_scan a fits_a)) as HnumA.
  destruct (turn_cases (a ++ b) (a ++ q) c r lA fits Hab HinvA)
    as [[HcA HlA] | (HcA & pA & HpreA & HpA & HstA & HsA & HnA & HstoredA)];
  destruct (turn_cases b q c r lB fits_b Hb HinvB)
    as [[HcB HlB] | (HcB & pB & HpreB & HpB & HstB & HsB & HnB & HstoredB)];
  try (rewrite Hstate in HcA; congruence).
  - (* only [state] changes *)
    rewrite HlA, HlB.
    split; cbn [set_state state pieceStartIdx pieces_num];
      change (stored (set_state lA (next (state lA) c))) with (stored lA);
      change (stored (set_state lB (next (state lB) c))) with (stored lB);
      try assumption.
    rewrite Hstate. reflexivity.
  - (* both add a piece *)
    subst q. rewrite app_assoc in HpreA. apply app_inj_tail in HpreA as [<- _].
    split.
    + rewrite HstA, HstB, Hstate. reflexivity.
    + lia.
    + lia.
    + intros _. split.
      * rewrite HsA, HsB, !Rf_xlength_app. lia.
      * rewrite HstoredA, HstoredB.
        destruct (Z.eq_dec (pieces_num lB) 0) as [Hzero|Hpos].
        -- destruct (Hfirst Hzero) as (HsA0 & HsB0 & Hst0).
           assert (stored lB = []) as ->.
           { apply length_zero_iff_nil. rewrite length_stored by lia. lia. }
           exists (mkChar (drop (Z.to_nat (pieceStartIdx lB)) pB)), [].
           split; [reflexivity|].
           rewrite Hst0, HsA0, HsB0. cbn [CHAR]. rewrite drop_0.
           rewrite drop_app_le by (unfold Rf_xlength in *; lia). reflexivity.
        -- destruct (Hlater ltac:(lia)) as (HsA1 & hb & tb & HstB1 & HstA1).
           exists hb, (tb ++ [mkChar (drop (Z.to_nat (pieceStartIdx lB)) pB)]).
           rewrite HstB1, HstA1, HsA1. split; [reflexivity|].
           rewrite <- app_assoc. cbn [app].
           replace (Z.to_nat (Rf_xlength a + pieceStartIdx lB))
             with (length a + Z.to_nat (pieceStartIdx lB))%nat
             by (unfold Rf_xlength; lia).
           rewrite drop_app_add. reflexivity.
Qed.

Lemma sim_for_loop todo : forall q r lA lB,
  b = q ++ todo ++ r -> inv (a ++ q) lA -> inv q lB -> sim lA lB ->
  sim (for_loop (a ++ b) todo (Rf_xlength (a ++ q)) lA) (for_loop b todo (Rf_xlength q) lB).
Proof.
  induction todo as [|c todo IH]; intros q r lA lB Hb HinvA HinvB Hsim; [exact Hsim|].
  cbn [for_loop].
  rewrite <- (Rf_xlength_snoc (a ++ q) c), <- (Rf_xlength_snoc q c), <- app_assoc.
  apply (IH (q ++ [c]) r).
  - rewrite <- app_assoc. exact Hb.
  - rewrite app_assoc.
    apply (inv_step (a ++ b) fits (a ++ q) c (todo ++ r)); [|exact HinvA].
    rewrite Hb, <- app_assoc. reflexivity.
  - apply (inv_step b fits_b q c (todo ++ r)); assumption.
  - apply (sim_step q c (todo ++ r)); assumption.
Qed.

Lemma sim_scan : sim (scan (a ++ b)) (scan b).
Proof.
  unfold scan at 1. rewrite for_loop_app, (for_loop_prefix a b fits), Z.add_0_l.
  pose proof (sim_for_loop b [] [] (scan a) init) as H.
  rewrite !app_nil_r in H. cbn [app] in H. apply H.
  - reflexivity.
  - apply inv_scan, fits_a.
  - apply inv_init.
  - apply sim_init.
Qed.

End Concat.

(** When the scan of a document ends in state [html], the scan of that
    document followed by a second one gives the pieces of the first and
    those of the second, the last piece of the first and the first piece
    of the second making one HTML piece. *)
Theorem concat_documents (a b : list byte) (ha tb : STRSXP) (la hb : CHARSXP) :
  Rf_xlength (a ++ b) <= INT_MAX ->
  state (scan a) = html ->
  template_dfa [mkChar a] = Ok (ha ++ [la]) ->
  template_dfa [mkChar b] = Ok (hb :: tb) ->
  template_dfa [mkChar (a ++ b)] = Ok (ha ++ mkChar (CHAR la ++ CHAR hb) :: tb).
Proof.
  intros Hfits Ha Hoka Hokb.
  destruct (sim_scan a b Hfits Ha) as [Hstate Hnum Hfirst Hlater].
  pose proof (fits_a a b Hfits) as Hfa.
  pose proof (fits_b a b Hfits) as Hfb.
  pose proof (template_dfa_Ok _ _ Hoka) as Hsa.
  pose proof (template_dfa_Ok _ _ Hokb) as Hsb.
  rewrite (template_dfa_pieces (mkChar a) Hfa Hsa) in Hoka.
  rewrite (template_dfa_pieces (mkChar b) Hfb Hsb) in Hokb.
  cbn [CHAR] in *.
  injection Hoka as Hoka. apply app_inj_tail in Hoka as [<- <-].
  injection Hokb as Hokb.
  assert (in_html (state (scan (CHAR (mkChar (a ++ b))))) = true) as Hsab
    by (cbn [CHAR]; rewrite Hstate; exact Hsb).
  rewrite (template_dfa_pieces (mkChar (a ++ b)) Hfits Hsab). cbn [CHAR]. f_equal.
  pose proof (inv_num _ _ (inv_scan b Hfb)) as HnumB.
  pose proof (inv_room _ _ (inv_scan b Hfb)) as [HroomB _].
  pose proof (inv_start _ _ (inv_scan a Hfa)) as HstartA.
  pose proof (inv_num _ _ (inv_scan a Hfa)) as HnumA.
  destruct (Z.eq_dec (pieces_num (scan b)) 0) as [Hzero|Hpos].
  - destruct (Hfirst Hzero) as (HsA & HsB & Hst).
    assert (stored (scan b) = []) as Hnil.
    { apply length_zero_iff_nil. rewrite length_stored by lia. lia. }
    rewrite Hnil, HsB in Hokb. cbn [app] in Hokb. rewrite drop_0 in Hokb.
    injection Hokb as <- <-.
    rewrite Hst, HsA. cbn [CHAR].
    rewrite drop_app_le by (unfold Rf_xlength in *; lia). reflexivity.
  - destruct (Hlater ltac:(lia)) as (HsA & hb' & tb' & HstB & HstA).
    rewrite HstB in Hokb. cbn [app] in Hokb. injection Hokb as <- <-.
    rewrite HstA, HsA, <- app_assoc. cbn [app].
    replace (Z.to_nat (Rf_xlength a + pieceStartIdx (scan b)))
      with (length a + Z.to_nat (pieceStartIdx (scan b)))%nat
      by (unfold Rf_xlength; lia).
    rewrite drop_app_add. reflexivity.
Qed.

Lemma concat_documents_witness :
  template_dfa [mkChar (bytes "x{{1}}y" ++ bytes "z{{2}}w")]
  = Ok ([str "x"; str "1"] ++ mkChar (CHAR (str "y") ++ CHAR (str "z")) :: [str "2"; str "w"]).
Proof.
  apply concat_documents.
  - unfold Rf_xlength, INT_MAX. simpl. lia.
  - reflexivity.
  - reflexivity.
  - reflexivity.
Defined.

(** ** A code block without quotes, comments and closing braces *)

(** The bytes that make the scanner leave state [code]. *)
Definition special (c : byte) : bool :=
  existsb (Byte.eqb c) ["}"%byte; "'"%byte; x22; "`"%byte; "%"%byte; "#"%byte].

Definition plain (d : list byte) : bool := forallb (fun c => negb (special c)) d.

Lemma loop_body_plain input i c start ps n :
  special c = false ->
  loop_body input i c (mkLocals code start ps n) = mkLocals code start ps n.
Proof. destruct c; cbv; intros H; first [discriminate H | reflexivity]. Qed.

Lemma for_loop_plain input d : forall i start ps n,
  plain d = true ->
  for_loop input d i (mkLocals code start ps n) = mkLocals code start ps n.
Proof.
  induction d as [|c d IH]; intros i start ps n Hd; [reflexivity|].
  cbn [plain forallb] in Hd. apply andb_true_iff in Hd as [Hc Hd].
  cbn [for_loop]. rewrite loop_body_plain by (destruct (special c); [discriminate | reflexivity]).
  apply IH. exact Hd.
Qed.

Lemma scan_plain_block (d : list byte) :
  Rf_xlength d + 4 <= INT_MAX -> plain d = true ->
  scan (delimiter_after HTML ++ d ++ delimiter_after RCode)
  = mkLocals html (Rf_xlength d + 4)
      (R_BlankString :: mkChar d :: replicate 8 R_BlankString) 2.
Proof.
  intros Hfits Hd. pose proof (Rf_xlength_nonneg d) as Hd0.
  unfold scan. set (input := delimiter_after HTML ++ d ++ delimiter_after RCode).
  unfold input at 2. rewrite !for_loop_app.
  change (for_loop input (delimiter_after HTML) 0 init)
    with (mkLocals code 2 (replicate 10 R_BlankString) 1).
  rewrite for_loop_plain by exact Hd.
  change (Rf_xlength (delimiter_after HTML)) with 2.
  change (for_loop input (delimiter_after RCode) (0 + 2 + Rf_xlength d)
            (mkLocals code 2 (replicate 10 R_BlankString) 1))
    with (add_piece input (0 + 2 + Rf_xlength d + 1)
            (mkLocals code_oneCloseBracket 2 (replicate 10 R_BlankString) 1) html).
  unfold add_piece. cbn [pieceStartIdx pieces pieces_num].
  f_equal.
  - rewrite to_int_small by (unfold INT_MAX in *; lia). lia.
  - change (to_int 1) with 1.
    replace (0 + 2 + Rf_xlength d + 1 - 2 - 1) with (Rf_xlength d) by lia.
    unfold Rf_mkCharLenCE, input, Rf_xlength. rewrite Nat2Z.id.
    change (drop (Z.to_nat 2) (delimiter_after HTML ++ d ++ delimiter_after RCode))
      with (d ++ delimiter_after RCode).
    rewrite take_app_length. reflexivity.
Qed.

(** A code block whose bytes are neither quotes nor [%], [#] or a closing
    brace, between an opening and a closing delimiter, is scanned into the
    empty HTML piece, the code and the empty HTML piece. *)
Theorem plain_code_block (d : list byte) :
  Rf_xlength d + 4 <= INT_MAX -> plain d = true ->
  template_dfa [mkChar (delimiter_after HTML ++ d ++ delimiter_after RCode)]
  = Ok [R_BlankString; mkChar d; R_BlankString].
Proof.
  intros Hfits Hd.
  assert (Rf_xlength (delimiter_after HTML ++ d ++ delimiter_after RCode) = Rf_xlength d + 4)
    as Hlen.
  { rewrite !Rf_xlength_app. unfold Rf_xlength. cbn [delimiter_after length]. lia. }
  rewrite template_dfa_pieces; cbn [CHAR]; rewrite ?scan_plain_block by assumption;
    [| lia | reflexivity].
  cbn [pieceStartIdx]. rewrite drop_ge by (unfold Rf_xlength in *; lia).
  reflexivity.
Qed.

Lemma plain_code_block_witness :
  template_dfa [mkChar (delimiter_after HTML ++ bytes " x + f(1) " ++ delimiter_after RCode)]
  = Ok [R_BlankString; mkChar (bytes " x + f(1) "); R_BlankString].
Proof.
  apply plain_code_block.
  - unfold Rf_xlength, INT_MAX. simpl. lia.
  - reflexivity.
Defined.

(** ** The size of the buffer *)

Lemma str_sxp_set_length x i v :
  0 < Rf_xlength x -> 0 <= i <= Rf_xlength x ->
  Rf_xlength (str_sxp_set x i v) = if i <? Rf_xlength x then Rf_xlength x else 2 * Rf_xlength x.
Proof.
  intros Hpos Hi. unfold str_sxp_set, SET_STRING_ELT.
  destruct (Z.leb_spec (Rf_xlength x) i) as [Hfull|Hroom].
  - rewrite (proj2 (Z.ltb_ge i (Rf_xlength x))) by lia.
    assert (Rf_xlength (Rf_lengthgets x (Rf_xlength x * 2)) = 2 * Rf_xlength x) as Hlen.
    { unfold Rf_lengthgets, Rf_xlength.
      rewrite length_app, length_take, length_replicate. lia. }
    destruct ((0 <=? i) && (i <? Rf_xlength (Rf_lengthgets x (Rf_xlength x * 2))));
      [|exact Hlen].
    unfold Rf_xlength in *. rewrite length_insert. exact Hlen.
  - rewrite (proj2 (Z.ltb_lt i (Rf_xlength x))) by lia.
    destruct (0 <=? i); cbn [andb]; [|reflexivity].
    unfold Rf_xlength. rewrite length_insert. reflexivity.
Qed.

Definition buffer_ok (l : locals) : Prop :=
  10 <= Rf_xlength (pieces l) <= Z.max 10 (2 * pieces_num l).

Lemma buffer_ok_step input pre c todo l :
  Rf_xlength input <= INT_MAX ->
  input = pre ++ c :: todo -> inv pre l -> buffer_ok l ->
  buffer_ok (loop_body input (Rf_xlength pre) c l).
Proof.
  intros Hfits Hinput Hinv Hbuf. unfold buffer_ok in *.
  pose proof (inv_num _ _ Hinv) as Hnum.
  pose proof (inv_start _ _ Hinv) as Hstart.
  pose proof (inv_room _ _ Hinv) as [Hroom Hpos].
  assert (Rf_xlength pre < Rf_xlength input) as Hlt.
  { rewrite Hinput, Rf_xlength_app. unfold Rf_xlength. cbn [length]. lia. }
  rewrite loop_body_eq. destruct (completes (state l) c); [|exact Hbuf].
  unfold add_piece. cbn [pieces pieces_num].
  rewrite to_int_small by (unfold INT_MAX in *; lia).
  rewrite str_sxp_set_length by lia.
  destruct (Z.ltb_spec (pieces_num l) (Rf_xlength (pieces l))); lia.
Qed.

Lemma buffer_ok_for_loop input todo :
  Rf_xlength input <= INT_MAX ->
  forall pre l rest,
    input = pre ++ todo ++ rest -> inv pre l -> buffer_ok l ->
    buffer_ok (for_loop input todo (Rf_xlength pre) l).
Proof.
  intros Hfits.
  induction todo as [|c todo IH]; intros pre l rest Hinput Hinv Hbuf; [exact Hbuf|].
  cbn [for_loop]. rewrite <- (Rf_xlength_snoc pre c).
  apply (IH _ _ rest).
  - rewrite <- app_assoc. exact Hinput.
  - apply (inv_step input Hfits pre c (todo ++ rest)); assumption.
  - apply (buffer_ok_step input pre c (todo ++ rest)); assumption.
Qed.

(** The buffer of pieces, allocated with 10 elements, grows with the number
    of pieces only: while a document is scanned it never has fewer than 10
    elements nor more than twice the number of pieces stored, if that is
    more than 10. *)
Theorem buffer_stays_linear (input pre rest : list byte) :
  Rf_xlength input <= INT_MAX ->
  input = pre ++ rest ->
  let l := for_loop input pre 0 init in
  10 <= Rf_xlength (pieces l) <= Z.max 10 (2 * pieces_num l).
Proof.
  intros Hfits Hinput.
  apply (buffer_ok_for_loop input pre Hfits [] init rest).
  - exact Hinput.
  - apply inv_init.
  - change (10 <= 10 <= Z.max 10 (2 * 0)). lia.
Qed.

Lemma buffer_stays_linear_witness :
  let l := for_loop (bytes "0{{1}}2{{3}}4{{5}}6{{7}}8{{9}}a{{b}}c")
             (bytes "0{{1}}2{{3}}4{{5}}6{{7}}8{{9}}a{{b}}") 0 init in
  10 <= Rf_xlength (pieces l) <= Z.max 10 (2 * pieces_num l).
Proof.
  apply (buffer_stays_linear (bytes "0{{1}}2{{3}}4{{5}}6{{7}}8{{9}}a{{b}}c")
           (bytes "0{{1}}2{{3}}4{{5}}6{{7}}8{{9}}a{{b}}") (bytes "c")).
  - unfold Rf_xlength, INT_MAX. simpl. lia.
  - reflexivity.
Defined.
